(** * SaveVideo: the frame queue, the writer thread and the start/stop commands

    A shallow embedding of [src/src/Modules/SaveVideo/SaveVideo.C].

    The module runs two threads:
    - the engine thread, which calls [process] once per camera frame,
      [parseSerial] for each user command and [postUninit] at shutdown, and
      sets the parameters [filename] and [fourcc] between these calls;
    - the writer thread [run], started by [postInit], which reads both
      parameters anew when it opens a file.
    They share [itsBuf], a [jevois::BoundedBuffer<cv::Mat, Block, Block>] of
    size 1000, and the atomic flags [itsSaving] and [itsRunning].  The
    embedding is a small-step interleaving semantics: [hstep] is one atomic
    step of the engine thread, [wstep] one atomic step of the writer thread,
    and [step] lets either of them move. *)

From Stdlib Require Import String Ascii ZArith List Lia Bool.
From Stdlib Require Import Relations.Relation_Operators.
Import ListNotations.

Open Scope string_scope.
Open Scope list_scope.
Open Scope Z_scope.

(** ** Images *)

(** A [jevois::RawImage] as delivered by the camera (YUYV pixels); the pixel
    contents are abstracted into one number. *)
Record RawImage := mkRawImage { width : nat; height : nat; pixels : nat }.

(** A [cv::Mat]; [cv::Mat()] is the matrix with no rows and no columns. *)
Record Mat := mkMat { rows : nat; cols : nat; data : nat }.

(** [cv::Mat::empty()]: true iff the matrix has no elements. *)
Definition mat_empty (m : Mat) : bool := Nat.eqb (rows m * cols m) 0.

(** [cv::Mat()]: the end-of-video marker pushed by [stop] and [postUninit]. *)
Definition emptyMat : Mat := mkMat 0 0 0.

(** [jevois::rawimage::convertToCvBGR]: same size, converted pixels. *)
Definition convertToCvBGR (img : RawImage) : Mat :=
  mkMat (height img) (width img) (pixels img).

(** The frame source: the camera only delivers images of positive size
    (every video mapping of the module has a positive resolution). *)
Definition camera_ok (img : RawImage) : bool :=
  (Nat.ltb 0 (width img) && Nat.ltb 0 (height img))%bool.

(** ** The bounded buffer [itsBuf] *)

(** [itsBuf(1000)] in the constructor. *)
Definition buf_size : nat := 1000.

(** [BoundedBuffer::filled_size()]. *)
Definition filled_size (q : list Mat) : nat := length q.

(** [BoundedBuffer::push] with [BlockingBehavior::Block] when full: [None]
    means the caller is blocked (no step is possible). *)
Definition bb_push (q : list Mat) (m : Mat) : option (list Mat) :=
  if Nat.ltb (length q) buf_size then Some (q ++ [m]) else None.

(** [BoundedBuffer::pop] with [BlockingBehavior::Block] when empty. *)
Definition bb_pop (q : list Mat) : option (Mat * list Mat) :=
  match q with
  | [] => None
  | m :: q' => Some (m, q')
  end.

(** ** [std::snprintf(tmp, 2047, fn.c_str(), itsFileNum)]

    The template is a [printf] format for one [int] argument.  A conversion
    is [%], flags among [-+ #0], a field width, a precision [.N], a length
    [h] or [hh], and one of [d i u o x X]; [%%] prints a percent sign.  A
    conversion outside this set is copied as it is (the C library makes it
    undefined); every conversion prints the one argument.  At most 2046
    characters are written. *)

(** The flags of one conversion. *)
Record Flags := mkFlags { f_minus : bool; f_plus : bool; f_space : bool;
                          f_hash : bool; f_zero : bool }.

Definition no_flags : Flags := mkFlags false false false false false.

Fixpoint read_flags (s : string) (f : Flags) : Flags * string :=
  match s with
  | String "-" s' => read_flags s' (mkFlags true (f_plus f) (f_space f) (f_hash f) (f_zero f))
  | String "+" s' => read_flags s' (mkFlags (f_minus f) true (f_space f) (f_hash f) (f_zero f))
  | String " " s' => read_flags s' (mkFlags (f_minus f) (f_plus f) true (f_hash f) (f_zero f))
  | String "#" s' => read_flags s' (mkFlags (f_minus f) (f_plus f) (f_space f) true (f_zero f))
  | String "0" s' => read_flags s' (mkFlags (f_minus f) (f_plus f) (f_space f) (f_hash f) true)
  | _ => (f, s)
  end.

Definition is_digit (c : ascii) : bool :=
  (Nat.leb 48 (nat_of_ascii c) && Nat.leb (nat_of_ascii c) 57)%bool.

(** Reads a decimal number (field width or precision). *)
Fixpoint read_width (s : string) (acc : nat) : nat * string :=
  match s with
  | String c s' =>
      if is_digit c then read_width s' (acc * 10 + (nat_of_ascii c - 48))%nat
      else (acc, s)
  | EmptyString => (acc, s)
  end.

(** The precision: absent, or [.] and a possibly empty number. *)
Definition read_precision (s : string) : option nat * string :=
  match s with
  | String "." s' => let '(p, s'') := read_width s' 0 in (Some p, s'')
  | _ => (None, s)
  end.

(** The length modifier: 0 for none, 1 for [h], 2 for [hh]. *)
Definition read_length (s : string) : nat * string :=
  match s with
  | String "h" (String "h" s') => (2%nat, s')
  | String "h" s' => (1%nat, s')
  | _ => (0%nat, s)
  end.

(** The digit [d] (below 16), in upper case when [upper]. *)
Definition digit_char (upper : bool) (d : Z) : ascii :=
  if d <? 10 then ascii_of_nat (48 + Z.to_nat d)
  else ascii_of_nat ((if upper then 55 else 87) + Z.to_nat d).

Fixpoint digits_aux (fuel : nat) (b : Z) (upper : bool) (n : Z) (acc : string) : string :=
  match fuel with
  | O => acc
  | S f =>
      let acc' := String (digit_char upper (n mod b)) acc in
      if n <? b then acc' else digits_aux f b upper (n / b) acc'
  end.

(** The digits of a non-negative number in base [b]. *)
Definition in_base (b : Z) (upper : bool) (n : Z) : string :=
  digits_aux (S (Z.to_nat (Z.log2 n))) b upper n "".

Fixpoint pad (c : ascii) (k : nat) (s : string) : string :=
  match k with
  | O => s
  | S k' => String c (pad c k' s)
  end.

(** The argument as the type the length modifier names: [int],
    [short] or [signed char], or their unsigned versions. *)
Definition arg_value (len : nat) (signed : bool) (n : Z) : Z :=
  let m := match len with O => 4294967296 | 1%nat => 65536 | _ => 256 end in
  if signed then (n + m / 2) mod m - m / 2 else n mod m.

(** One integer conversion [conv] of the argument [n]. *)
Definition format_int (f : Flags) (w : nat) (prec : option nat) (len : nat)
    (conv : ascii) (n : Z) : string :=
  let signed := (Ascii.eqb conv "d" || Ascii.eqb conv "i")%bool in
  let v := arg_value len signed n in
  let b := if Ascii.eqb conv "o" then 8 else
           if (Ascii.eqb conv "x" || Ascii.eqb conv "X")%bool then 16 else 10 in
  let body0 := if (match prec with Some O => true | _ => false end && (v =? 0))%bool
               then "" else in_base b (Ascii.eqb conv "X") (Z.abs v) in
  let p := match prec with Some p => p | None => 1%nat end in
  let body1 := pad "0" (p - String.length body0) body0 in
  let body := if (f_hash f && Ascii.eqb conv "o")%bool then
                match body1 with String "0" _ => body1 | _ => String "0" body1 end
              else body1 in
  let prefix :=
    if signed then
      if v <? 0 then "-" else if f_plus f then "+" else if f_space f then " " else ""
    else if (f_hash f && negb (v =? 0))%bool then
      if Ascii.eqb conv "x" then "0x" else if Ascii.eqb conv "X" then "0X" else ""
    else "" in
  let len_all := (String.length prefix + String.length body)%nat in
  if f_minus f then String.append (String.append prefix body) (pad " " (w - len_all) "")
  else if (f_zero f && match prec with None => true | _ => false end)%bool
  then String.append prefix (pad "0" (w - len_all) body)
  else pad " " (w - len_all) (String.append prefix body).

Definition int_conv (c : ascii) : bool :=
  existsb (Ascii.eqb c) ["d"; "i"; "u"; "o"; "x"; "X"]%char.

Fixpoint printf_aux (fuel : nat) (fmt : string) (n : Z) : string :=
  match fuel with
  | O => ""
  | S k =>
      match fmt with
      | EmptyString => ""
      | String "%" (String "%" rest) => String "%" (printf_aux k rest n)
      | String "%" rest =>
          let '(f, r1) := read_flags rest no_flags in
          let '(w, r2) := read_width r1 0 in
          let '(prec, r3) := read_precision r2 in
          let '(len, r4) := read_length r3 in
          match r4 with
          | String c rest' =>
              if int_conv c
              then String.append (format_int f w prec len c n) (printf_aux k rest' n)
              else String "%" (printf_aux k rest n)
          | EmptyString => String "%" (printf_aux k rest n)
          end
      | String c rest => String c (printf_aux k rest n)
      end
  end.

Definition snprintf (fmt : string) (n : Z) : string :=
  substring 0 2046 (printf_aux (S (String.length fmt)) fmt n).

Example snprintf_video : snprintf "video%06d.avi" 1 = "video000001.avi".
Proof. reflexivity. Qed.
Example snprintf_clip : snprintf "clip%03d.mp4" 0 = "clip000.mp4".
Proof. reflexivity. Qed.
Example snprintf_plain : snprintf "n%d%%" 1234 = "n1234%".
Proof. reflexivity. Qed.
Example snprintf_flags : snprintf "[%+5d][%-4d][% d][%.3d][%08.3d]" 42 =
  "[  +42][42  ][ 42][042][     042]".
Proof. reflexivity. Qed.
Example snprintf_neg : snprintf "%05d %d %u" (-42) = "-0042 -42 4294967254".
Proof. reflexivity. Qed.
Example snprintf_hex : snprintf "%x %X %#x %#o %o %#X" 255 = "ff FF 0xff 0377 377 0XFF".
Proof. reflexivity. Qed.
Example snprintf_short : snprintf "%hd %hhu %.0d|" 65537 = "1 1 65537|".
Proof. reflexivity. Qed.
Example snprintf_zero : snprintf "%.0d|%#.0o|%#x" 0 = "|0|0".
Proof. reflexivity. Qed.
Example snprintf_other : snprintf "a%sb%" 3 = "a%sb%".
Proof. reflexivity. Qed.
(** [#define PATHPREFIX]. *)
Definition PATHPREFIX : string := "/jevois/data/savevideo/".

(** [if (fn[0] != '/') fn = PATHPREFIX + fn;] *)
Definition add_prefix (fn : string) : string :=
  match fn with
  | String "/" _ => fn
  | _ => String.append PATHPREFIX fn
  end.

(** ** C [int] arithmetic

    [itsFileNum] and the [frame] counter of [run()] are [int]s: 32-bit two's
    complement.  [++] on [INT_MAX] overflows; the model takes the
    wrap-around to [INT_MIN] of the processor's addition. *)

Definition INT_MIN : Z := -2147483648.
Definition INT_MAX : Z := 2147483647.

(** The [int] that holds [z] modulo 2^32. *)
Definition to_int (z : Z) : Z := (z - INT_MIN) mod 4294967296 + INT_MIN.

(** [++x] on an [int]. *)
Definition int_incr (z : Z) : Z := to_int (z + 1).

Definition int_range (z : Z) : Prop := INT_MIN <= z <= INT_MAX.

Lemma to_int_id z : int_range z -> to_int z = z.
Proof.
  unfold int_range, to_int, INT_MIN, INT_MAX; intros Hz.
  rewrite Z.mod_small by lia; lia.
Qed.

Lemma to_int_range z : int_range (to_int z).
Proof.
  unfold int_range, to_int, INT_MIN, INT_MAX.
  pose proof (Z.mod_pos_bound (z - -2147483648) 4294967296 ltac:(lia)); lia.
Qed.

Lemma int_incr_succ z : INT_MIN <= z < INT_MAX -> int_incr z = z + 1.
Proof. intros Hz; apply to_int_id; unfold int_range in *; lia. Qed.

Lemma int_incr_max : int_incr INT_MAX = INT_MIN.
Proof. reflexivity. Qed.

Lemma int_incr_to_int z : int_incr (to_int z) = to_int (z + 1).
Proof.
  unfold int_incr, to_int; f_equal.
  replace ((z - INT_MIN) mod 4294967296 + INT_MIN + 1 - INT_MIN)
    with ((z - INT_MIN) mod 4294967296 + 1) by ring.
  rewrite Z.add_mod_idemp_l by lia; f_equal; ring.
Qed.

(** ** Module state *)

(** Messages sent with [sendSerial] and the error reports ([LERROR],
    [LFATAL], the exception thrown on an unknown command, the error the
    engine reports when a parameter rejects a value). *)
Inductive Msg :=
| SAVESTART
| SAVESTOP
| SAVETO (fn : string)
| SAVEDNUM (n : Z)
| DroppingFrame
| UnsupportedCommand
| InvalidParam (name : string)
| Fatal (what : string).

(** Program counter of the writer thread [run()]. *)
Inductive WPc :=
| WTop                      (** [while (itsRunning.load())] *)
| WPop                      (** [cv::Mat im = itsBuf.pop();] *)
| WStart (m : Mat)          (** [if (writer.isOpened() == false)]: parameters *)
| WProbe (m : Mat) (fn fcc : string) (** the file-number probing loop *)
| WOpen (m : Mat) (fcc : string)   (** [writer.open(...)] *)
| WWrite (m : Mat)          (** [writer << im;] and the progress report *)
| WBreak                    (** after [break]: [++itsFileNum;] *)
| WEndBody                  (** end of the loop body: [writer] destroyed *)
| WDone                     (** [run()] returned *)
| WFailed (what : string).  (** [run()] exited through [LFATAL] *)

(** Program counter of the engine thread. *)
Inductive HPc :=
| HReady                    (** between two calls into the module *)
| HPushFrame (m : Mat) (k : HPc) (** [itsBuf.push(convertToCvBGR(inimg))] *)
| HPushEnd (k : HPc)        (** [itsBuf.push(cv::Mat())] *)
| HSend (img : RawImage)    (** copy to the USB output and [outframe.send()] *)
| HPoll                     (** [while (itsBuf.filled_size()) sleep(200ms)] *)
| HJoin                     (** [itsRunFut.get()] in [postUninit] *)
| HDown.                    (** [postUninit] returned *)

(** What the engine asks the module to do. *)
Inductive Event :=
| EvFrame (img : RawImage) (with_output : bool) (** one of the two [process] *)
| EvCmd (str : string)                          (** [parseSerial(str)] *)
| EvSetFilename (v : string)                    (** [setpar filename v] *)
| EvSetFourcc (v : string)                      (** [setpar fourcc v] *)
| EvShutdown.                                   (** [postUninit()] *)

Record State := mkState {
  queue : list Mat;              (** [itsBuf] *)
  saving : bool;                 (** [itsSaving] *)
  running : bool;                (** [itsRunning] *)
  fileNum : Z;                   (** [itsFileNum], an [int] *)
  itsFilename : string;          (** [itsFilename] *)
  writer : option string;        (** the [cv::VideoWriter]: open on a file *)
  frame : Z;                     (** [frame] local to [run()], an [int] *)
  files : list string;           (** the files that exist on disk *)
  wpc : WPc;
  hpc : HPc;
  written : list (string * Mat); (** frames given to the encoder, per file *)
  pushed : list Mat;             (** ghost: frames [process] pushed *)
  sent : list RawImage;          (** frames sent over USB *)
  report : list Msg;             (** serial messages and error reports *)
  filename : string;             (** the value of the parameter [filename] *)
  fourcc : string                (** the value of the parameter [fourcc] *)
}.

Definition set_queue s v := mkState v (saving s) (running s) (fileNum s) (itsFilename s) (writer s) (frame s) (files s) (wpc s) (hpc s) (written s) (pushed s) (sent s) (report s) (filename s) (fourcc s).
Definition set_saving s v := mkState (queue s) v (running s) (fileNum s) (itsFilename s) (writer s) (frame s) (files s) (wpc s) (hpc s) (written s) (pushed s) (sent s) (report s) (filename s) (fourcc s).
Definition set_running s v := mkState (queue s) (saving s) v (fileNum s) (itsFilename s) (writer s) (frame s) (files s) (wpc s) (hpc s) (written s) (pushed s) (sent s) (report s) (filename s) (fourcc s).
Definition set_fileNum s v := mkState (queue s) (saving s) (running s) v (itsFilename s) (writer s) (frame s) (files s) (wpc s) (hpc s) (written s) (pushed s) (sent s) (report s) (filename s) (fourcc s).
Definition set_itsFilename s v := mkState (queue s) (saving s) (running s) (fileNum s) v (writer s) (frame s) (files s) (wpc s) (hpc s) (written s) (pushed s) (sent s) (report s) (filename s) (fourcc s).
Definition set_writer s v := mkState (queue s) (saving s) (running s) (fileNum s) (itsFilename s) v (frame s) (files s) (wpc s) (hpc s) (written s) (pushed s) (sent s) (report s) (filename s) (fourcc s).
Definition set_frame s v := mkState (queue s) (saving s) (running s) (fileNum s) (itsFilename s) (writer s) v (files s) (wpc s) (hpc s) (written s) (pushed s) (sent s) (report s) (filename s) (fourcc s).
Definition set_files s v := mkState (queue s) (saving s) (running s) (fileNum s) (itsFilename s) (writer s) (frame s) v (wpc s) (hpc s) (written s) (pushed s) (sent s) (report s) (filename s) (fourcc s).
Definition set_wpc s v := mkState (queue s) (saving s) (running s) (fileNum s) (itsFilename s) (writer s) (frame s) (files s) v (hpc s) (written s) (pushed s) (sent s) (report s) (filename s) (fourcc s).
Definition set_hpc s v := mkState (queue s) (saving s) (running s) (fileNum s) (itsFilename s) (writer s) (frame s) (files s) (wpc s) v (written s) (pushed s) (sent s) (report s) (filename s) (fourcc s).
Definition set_written s v := mkState (queue s) (saving s) (running s) (fileNum s) (itsFilename s) (writer s) (frame s) (files s) (wpc s) (hpc s) v (pushed s) (sent s) (report s) (filename s) (fourcc s).
Definition set_pushed s v := mkState (queue s) (saving s) (running s) (fileNum s) (itsFilename s) (writer s) (frame s) (files s) (wpc s) (hpc s) (written s) v (sent s) (report s) (filename s) (fourcc s).
Definition set_sent s v := mkState (queue s) (saving s) (running s) (fileNum s) (itsFilename s) (writer s) (frame s) (files s) (wpc s) (hpc s) (written s) (pushed s) v (report s) (filename s) (fourcc s).
Definition set_report s v := mkState (queue s) (saving s) (running s) (fileNum s) (itsFilename s) (writer s) (frame s) (files s) (wpc s) (hpc s) (written s) (pushed s) (sent s) v (filename s) (fourcc s).
Definition set_filename s v := mkState (queue s) (saving s) (running s) (fileNum s) (itsFilename s) (writer s) (frame s) (files s) (wpc s) (hpc s) (written s) (pushed s) (sent s) (report s) v (fourcc s).
Definition set_fourcc s v := mkState (queue s) (saving s) (running s) (fileNum s) (itsFilename s) (writer s) (frame s) (files s) (wpc s) (hpc s) (written s) (pushed s) (sent s) (report s) (filename s) v.

Definition emit (s : State) (msg : Msg) : State := set_report s (report s ++ [msg]).

Lemma set_fileNum_twice s a v : set_fileNum (set_fileNum s a) v = set_fileNum s v.
Proof. reflexivity. Qed.

Lemma fileNum_set_fileNum s v : fileNum (set_fileNum s v) = v.
Proof. reflexivity. Qed.

Lemma wpc_set_fileNum s v : wpc (set_fileNum s v) = wpc s.
Proof. reflexivity. Qed.

(** [std::ifstream ifs(tmp); ifs.is_open()]: the file exists. *)
Definition file_exists (fs : list string) (p : string) : bool :=
  existsb (String.eqb p) fs.

(** After [postInit]: [itsRunning] is true and [run()] is about to start;
    [fs] is what is already on disk; the parameters have their default
    values (a configuration file is a [setpar] before the first frame). *)
Definition init (fs : list string) : State :=
  mkState [] false true 0 "" None 0 fs WTop HReady [] [] [] [] "video%06d.avi" "MJPG".

(** A character of [\w]: a letter, a digit or [_]. *)
Definition is_word_char (c : ascii) : bool :=
  let n := nat_of_ascii c in
  (is_digit c || (Nat.leb 65 n && Nat.leb n 90) || (Nat.leb 97 n && Nat.leb n 122) ||
   Nat.eqb n 95)%bool.

(** The validity regex [^\w{4}$] of the parameter [fourcc]. *)
Definition fourcc_valid (v : string) : bool :=
  (Nat.eqb (String.length v) 4 && forallb is_word_char (list_ascii_of_string v))%bool.

Section Semantics.

(** Whether the external [cv::VideoWriter::open] succeeds for a path, a
    FourCC and a first frame ([fps] is a floating-point value only handed to
    the encoder and is left out). *)
Variable encoder_opens : string -> string -> Mat -> bool.

(** [process(inframe, outframe)] ([with_output]) and [process(inframe)]. *)
Definition process (s : State) (img : RawImage) (with_output : bool) : State :=
  let k := if with_output then HSend img else HReady in
  let pass_through (s : State) :=
    if with_output then set_sent s (sent s ++ [img]) else s in
  if saving s then
    if Nat.ltb 1000 (filled_size (queue s))
    then pass_through (emit s DroppingFrame)
    else set_hpc s (HPushFrame (convertToCvBGR img) k)
  else pass_through s.

(** [parseSerial(str, s)]. *)
Definition parseSerial (s : State) (str : string) : State :=
  if String.eqb str "start" then emit (set_saving s true) SAVESTART
  else if String.eqb str "stop" then
    set_hpc (emit (set_saving s false) SAVESTOP) (HPushEnd HPoll)
  else emit s UnsupportedCommand.

(** [postUninit()]. *)
Definition postUninit (s : State) : State :=
  set_hpc (set_running s false) (HPushEnd HJoin).

(** One step of the engine thread; [None] when it is blocked.  An event is
    only taken in [HReady]; the other steps take no event.  The engine sets
    a parameter between two calls into the module; [fourcc] refuses a value
    its regex rejects. *)
Definition hstep (s : State) (ev : option Event) : option State :=
  match hpc s, ev with
  | HReady, Some (EvFrame img o) =>
      if camera_ok img then Some (process s img o) else None
  | HReady, Some (EvCmd str) => Some (parseSerial s str)
  | HReady, Some (EvSetFilename v) => Some (set_filename s v)
  | HReady, Some (EvSetFourcc v) =>
      if fourcc_valid v then Some (set_fourcc s v) else Some (emit s (InvalidParam "fourcc"))
  | HReady, Some EvShutdown => Some (postUninit s)
  | HPushFrame m k, None =>
      match bb_push (queue s) m with
      | Some q => Some (set_hpc (set_pushed (set_queue s q) (pushed s ++ [m])) k)
      | None => None
      end
  | HPushEnd k, None =>
      match bb_push (queue s) emptyMat with
      | Some q => Some (set_hpc (set_queue s q) k)
      | None => None
      end
  | HSend img, None => Some (set_hpc (set_sent s (sent s ++ [img])) HReady)
  | HPoll, None =>
      if Nat.eqb (filled_size (queue s)) 0 then Some (set_hpc s HReady)
      else Some s
  | HJoin, None =>
      match wpc s with
      | WDone | WFailed _ => Some (set_hpc s HDown)
      | _ => None
      end
  | _, _ => None
  end.

(** [LFATAL]: throws out of [run()]. *)
Definition fatal (s : State) (what : string) : State :=
  set_wpc (emit s (Fatal what)) (WFailed what).

Definition writer_path (s : State) : string :=
  match writer s with Some p => p | None => "" end.

(** One step of the writer thread [run()]; [None] when it is blocked in
    [pop] or has exited. *)
Definition wstep (s : State) : option State :=
  match wpc s with
  | WTop =>
      if running s then Some (set_wpc (set_frame (set_writer s None) 0) WPop)
      else Some (set_wpc s WDone)
  | WPop =>
      match bb_pop (queue s) with
      | None => None
      | Some (m, q) =>
          let s1 := set_queue s q in
          if mat_empty m then Some (set_wpc s1 WBreak)
          else match writer s with
               | None => Some (set_wpc s1 (WStart m))
               | Some _ => Some (set_wpc s1 (WWrite m))
               end
      end
  | WStart m =>
      (* [fourcc::get()] then [filename::get()], read anew for each file;
         the mkdir -p of the directory only creates directories, which are
         not tracked, and its failure is ignored *)
      let fcc := fourcc s in
      let fn := filename s in
      if String.eqb fn "" then Some (fatal s "Cannot save to an empty filename")
      else Some (set_wpc s (WProbe m (add_prefix fn) fcc))
  | WProbe m fn fcc =>
      let tmp := snprintf fn (fileNum s) in
      if file_exists (files s) tmp then Some (set_fileNum s (int_incr (fileNum s)))
      else Some (set_wpc (set_itsFilename s tmp) (WOpen m fcc))
  | WOpen m fcc =>
      let fn := itsFilename s in
      if encoder_opens fn fcc m then
        Some (set_wpc (emit (set_files (set_writer s (Some fn)) (fn :: files s))
                            (SAVETO fn)) (WWrite m))
      else Some (fatal s "Failed to open video encoder")
  | WWrite m =>
      let fr := int_incr (frame s) in
      let s1 := set_frame (set_written s (written s ++ [(writer_path s, m)])) fr in
      let s2 := if Z.rem fr 100 =? 0 then emit s1 (SAVEDNUM fr) else s1 in
      Some (set_wpc s2 WPop)
  | WBreak => Some (set_wpc (set_fileNum s (int_incr (fileNum s))) WEndBody)
  | WEndBody => Some (set_wpc (set_writer s None) WTop)
  | WDone | WFailed _ => None
  end.

(** Either thread moves. *)
Inductive step (s s' : State) : Prop :=
| step_host (ev : option Event) : hstep s ev = Some s' -> step s s'
| step_worker : wstep s = Some s' -> step s s'.

Definition steps : State -> State -> Prop := clos_refl_trans_1n State step.

Definition reachable (fs : list string) (s : State) : Prop := steps (init fs) s.

(** A schedule: which thread moves, and the engine's event. *)
Inductive Sched := H (ev : option Event) | W.

Fixpoint run_sched (l : list Sched) (s : State) : option State :=
  match l with
  | [] => Some s
  | a :: l' =>
      match (match a with H ev => hstep s ev | W => wstep s end) with
      | Some s' => run_sched l' s'
      | None => None
      end
  end.

End Semantics.

(** ** Concrete runs *)

(** A 320x240 camera frame. *)
Definition img (k : nat) : RawImage := mkRawImage 320 240 k.

(** An encoder that opens every file. *)
Definition opens_always : string -> string -> Mat -> bool := fun _ _ _ => true.

Definition cmd (str : string) : Sched := H (Some (EvCmd str)).
Definition grab (k : nat) : Sched := H (Some (EvFrame (img k) false)).
Definition cont : Sched := H None.
Definition set_filename_to (v : string) : Sched := H (Some (EvSetFilename v)).

Definition the_state (o : option State) : State :=
  match o with Some s => s | None => init [] end.

(** A run with the parameters at their defaults until a [setpar]:
    [filename = "video%06d.avi"], [fourcc = "MJPG"]. *)
Definition video_run (fs : list string) (l : list Sched) : option State :=
  run_sched opens_always l (init fs).

(** The paths announced with [SAVETO], in order. *)
Fixpoint saved_to (r : list Msg) : list string :=
  match r with
  | [] => []
  | SAVETO fn :: r' => fn :: saved_to r'
  | _ :: r' => saved_to r'
  end.

(** ** Specification-level views of a state *)

(** The frame the writer thread holds between [pop] and [writer << im]. *)
Definition held (w : WPc) : list Mat :=
  match w with
  | WStart m | WProbe m _ _ | WOpen m _ | WWrite m => [m]
  | _ => []
  end.

(** The real frames waiting in [itsBuf] (end markers left out). *)
Definition queued_frames (q : list Mat) : list Mat :=
  filter (fun m => negb (mat_empty m)) q.

(** Frames the engine thread is about to push are real frames. *)
Fixpoint hpc_ok (h : HPc) : bool :=
  match h with
  | HPushFrame m k => negb (mat_empty m) && hpc_ok k
  | HPushEnd k => hpc_ok k
  | _ => true
  end.

Definition failed (w : WPc) : bool :=
  match w with WFailed _ => true | _ => false end.

(** ** Proof tactics *)

Ltac unfold_state :=
  unfold hstep, wstep, process, parseSerial, postUninit, fatal, emit, writer_path,
    bb_push, bb_pop, filled_size,
    set_queue, set_saving, set_running, set_fileNum, set_itsFilename, set_writer,
    set_frame, set_files, set_wpc, set_hpc, set_written, set_pushed, set_sent,
    set_report, set_filename, set_fourcc in *.

(** Case split on every test of a step function, innermost first, until the
    step hypothesis [H] gives the new state. *)
Ltac split_step H :=
  unfold_state;
  repeat (match type of H with
          | context [match ?x with _ => _ end] =>
              lazymatch x with
              | context [match _ with _ => _ end] => fail
              | _ => let E := fresh "E" in destruct x eqn:E
              end
          end);
  try discriminate H; injection H as <-; simpl in *.

Ltac rewrite_eqs :=
  repeat match goal with
         | E : ?x = _ |- context [?x] => progress rewrite E
         | E : ?x = _, H : context [?x] |- _ => progress rewrite E in H
         end.

(** ** General facts about the semantics *)

Lemma camera_nonempty img :
  camera_ok img = true -> mat_empty (convertToCvBGR img) = false.
Proof.
  unfold camera_ok, mat_empty, convertToCvBGR; simpl; intros Hc.
  apply andb_prop in Hc as [Hw Hh]; apply Nat.ltb_lt in Hw, Hh.
  apply Nat.eqb_neq; nia.
Qed.

Section Properties.

Variable encoder_opens : string -> string -> Mat -> bool.

Local Abbreviation wstep := (wstep encoder_opens).
Local Abbreviation step := (step encoder_opens).
Local Abbreviation steps := (steps encoder_opens).
Local Abbreviation reachable := (reachable encoder_opens).
Local Abbreviation run_sched := (run_sched encoder_opens).

Lemma run_sched_steps l s s' : run_sched l s = Some s' -> steps s s'.
Proof.
  revert s; induction l as [|a l IH]; simpl; intros s Hr.
  - injection Hr as <-; constructor.
  - destruct a as [ev|] eqn:Ea.
    + destruct (hstep s ev) as [s1|] eqn:Hs; [|discriminate].
      econstructor 2; [apply step_host with ev; exact Hs | apply IH; exact Hr].
    + destruct (wstep s) as [s1|] eqn:Hs; [|discriminate].
      econstructor 2; [apply step_worker; exact Hs | apply IH; exact Hr].
Qed.

(** An invariant of single steps holds along every run. *)
Lemma steps_ind_inv (P : State -> Prop) :
  (forall s s', P s -> step s s' -> P s') ->
  forall s s', steps s s' -> P s -> P s'.
Proof.
  intros Hstep s s' Hss; induction Hss as [|x y z Hxy Hyz IH]; intros Hx;
    [exact Hx | apply IH, (Hstep x y Hx Hxy)].
Qed.

(** The engine thread never touches the writer thread's state. *)
Lemma hstep_worker_frame s ev s' :
  hstep s ev = Some s' ->
  wpc s' = wpc s /\ writer s' = writer s /\ written s' = written s /\
  fileNum s' = fileNum s /\ files s' = files s /\ itsFilename s' = itsFilename s.
Proof.
  intros Hs; split_step Hs; repeat split.
Qed.

(** Each step leaves [itsFileNum] as it is or applies [++] to it. *)
Lemma step_fileNum s s' :
  step s s' -> fileNum s' = fileNum s \/ fileNum s' = int_incr (fileNum s).
Proof.
  intros [ev Hs | Hs]; split_step Hs; auto.
Qed.

(** [itsFileNum] always holds an [int]. *)
Lemma fileNum_range_step s s' :
  int_range (fileNum s) -> step s s' -> int_range (fileNum s').
Proof.
  intros Hr Hst; destruct (step_fileNum s s' Hst) as [-> | ->];
    [exact Hr | apply to_int_range].
Qed.

Lemma fileNum_range_reachable fs s : reachable fs s -> int_range (fileNum s).
Proof.
  intros Hr; apply (steps_ind_inv _ fileNum_range_step _ _ Hr).
  unfold int_range, INT_MIN, INT_MAX; simpl; lia.
Qed.

(** The frames given to the encoder, the frame in the writer's hands and the
    real frames in [itsBuf] are, in this order, the frames [process] pushed;
    the engine thread only ever pushes real frames. *)
Definition fifo_inv (s : State) : Prop :=
  hpc_ok (hpc s) = true /\
  (failed (wpc s) = false ->
   map snd (written s) ++ held (wpc s) ++ queued_frames (queue s) = pushed s).

Lemma fifo_inv_init fs : fifo_inv (init fs).
Proof. split; reflexivity. Qed.

Lemma fifo_inv_step s s' : fifo_inv s -> step s s' -> fifo_inv s'.
Proof.
  unfold fifo_inv, queued_frames. intros [Hok Heq] [ev Hs | Hs]; split_step Hs;
  rewrite_eqs; simpl in *; rewrite_eqs; simpl in *.
  all: try (apply andb_prop in Hok as [Hm Hok]; apply negb_true_iff in Hm).
  all: split; [try reflexivity; try assumption; try (rewrite camera_nonempty; auto)|
     intros Hf; try discriminate Hf; try specialize (Heq eq_refl); try specialize (Heq Hf);
     rewrite <- Heq; clear Heq; rewrite ?filter_app, ?map_app; simpl; rewrite_eqs; simpl;
     rewrite ?app_nil_r, <- ?app_assoc; simpl; reflexivity].
Qed.

Lemma fifo_inv_reachable fs s : reachable fs s -> fifo_inv s.
Proof.
  intros Hr; apply (steps_ind_inv fifo_inv fifo_inv_step _ _ Hr), fifo_inv_init.
Qed.

(** [itsBuf] never holds more than its size. *)
Lemma queue_bound_step s s' :
  (filled_size (queue s) <= buf_size)%nat -> step s s' ->
  (filled_size (queue s') <= buf_size)%nat.
Proof.
  unfold buf_size; intros Hb [ev Hs | Hs]; split_step Hs; rewrite_eqs; simpl in *;
    repeat match goal with E : Nat.ltb _ _ = true |- _ => apply Nat.ltb_lt in E end;
    rewrite ?length_app; unfold buf_size in *; simpl in *; lia.
Qed.

Lemma queue_bound_reachable fs s :
  reachable fs s -> (filled_size (queue s) <= buf_size)%nat.
Proof.
  intros Hr; apply (steps_ind_inv _ queue_bound_step _ _ Hr); simpl; lia.
Qed.

(** Only real frames are given to the encoder. *)
Definition written_ok (s : State) : Prop :=
  Forall (fun p => mat_empty (snd p) = false) (written s) /\
  Forall (fun m => mat_empty m = false) (held (wpc s)).

Lemma written_ok_step s s' : written_ok s -> step s s' -> written_ok s'.
Proof.
  unfold written_ok; intros [Hw Hh] Hst.
  destruct Hst as [ev Hs | Hs].
  - destruct (hstep_worker_frame s ev s' Hs) as (-> & _ & -> & _); auto.
  - split_step Hs; rewrite_eqs; simpl in *; split; auto;
      try (apply Forall_app; split; [assumption | inversion Hh; auto]).
Qed.

Lemma written_ok_reachable fs s : reachable fs s -> written_ok s.
Proof.
  intros Hr; apply (steps_ind_inv _ written_ok_step _ _ Hr).
  split; constructor.
Qed.

(** While the writer thread is about to open the encoder, the chosen path
    names no existing file. *)
Definition open_fresh (s : State) : Prop :=
  match wpc s with
  | WOpen _ _ => file_exists (files s) (itsFilename s) = false
  | _ => True
  end.

Lemma open_fresh_step s s' : open_fresh s -> step s s' -> open_fresh s'.
Proof.
  unfold open_fresh; intros Hf Hst.
  destruct Hst as [ev Hs | Hs].
  - destruct (hstep_worker_frame s ev s' Hs) as (-> & _ & _ & _ & -> & ->); auto.
  - split_step Hs; rewrite_eqs; simpl in *; auto.
Qed.

Lemma open_fresh_reachable fs s : reachable fs s -> open_fresh s.
Proof.
  intros Hr; apply (steps_ind_inv _ open_fresh_step _ _ Hr); exact I.
Qed.

(** A writer thread that exited through [LFATAL] stays so, and nothing more
    reaches the encoder. *)
Lemma failed_steps s s' what :
  steps s s' -> wpc s = WFailed what ->
  wpc s' = WFailed what /\ written s' = written s.
Proof.
  intros Hss; induction Hss as [|x y z Hxy Hyz IH]; intros Hx; [auto|].
  assert (Hy : wpc y = WFailed what /\ written y = written x).
  { destruct Hxy as [ev Hs | Hs].
    - destruct (hstep_worker_frame x ev y Hs) as (-> & _ & -> & _); auto.
    - unfold wstep in Hs; rewrite Hx in Hs; discriminate. }
  destruct Hy as [Hy Hwy]; destruct (IH Hy) as [Hz Hwz]; split; congruence.
Qed.

(** Popping an end marker: [break], [++itsFileNum], the writer destroyed, and
    back to [pop] while [itsRunning] holds. *)
Lemma sentinel_cycle s m q :
  wpc s = WPop -> queue s = m :: q -> mat_empty m = true -> running s = true ->
  exists s1 s2 s3 s4,
    wstep s = Some s1 /\ wstep s1 = Some s2 /\ wstep s2 = Some s3 /\
    wstep s3 = Some s4 /\
    wpc s1 = WBreak /\ wpc s2 = WEndBody /\ wpc s3 = WTop /\ wpc s4 = WPop /\
    queue s1 = q /\ queue s4 = q /\ written s4 = written s /\
    files s4 = files s /\ writer s4 = None /\ fileNum s1 = fileNum s /\
    fileNum s2 = int_incr (fileNum s) /\ fileNum s3 = int_incr (fileNum s) /\
    fileNum s4 = int_incr (fileNum s).
Proof.
  intros Hw Hq He Hr.
  exists (set_wpc (set_queue s q) WBreak).
  exists (set_wpc (set_fileNum (set_wpc (set_queue s q) WBreak) (int_incr (fileNum s))) WEndBody).
  exists (set_wpc (set_writer (set_wpc (set_fileNum (set_wpc (set_queue s q) WBreak)
            (int_incr (fileNum s))) WEndBody) None) WTop).
  exists (set_wpc (set_frame (set_writer (set_wpc (set_writer (set_wpc (set_fileNum
            (set_wpc (set_queue s q) WBreak) (int_incr (fileNum s))) WEndBody) None) WTop) None) 0) WPop).
  unfold wstep at 1; rewrite Hw; unfold bb_pop; rewrite Hq, He.
  unfold wstep; cbn [wpc queue fileNum running files written writer set_wpc set_queue
    set_fileNum set_writer set_frame].
  rewrite Hr; repeat split.
Qed.

Lemma steps_trans a b c : steps a b -> steps b c -> steps a c.
Proof.
  intros Hab; induction Hab as [|x y z Hxy Hyz IH]; intros Hc; [exact Hc|].
  econstructor 2; [exact Hxy | apply IH, Hc].
Qed.

(** The probing loop on a template that names an existing file at every
    number: the writer thread counts [itsFileNum] up to any [int] above. *)
Lemma probe_spin s m fn fcc v :
  wpc s = WProbe m fn fcc ->
  (forall n, file_exists (files s) (snprintf fn n) = true) ->
  INT_MIN <= fileNum s <= v -> v <= INT_MAX ->
  steps s (set_fileNum s v).
Proof.
  intros Hw Hf Hb Hv.
  assert (Hk : forall k t, wpc t = WProbe m fn fcc -> files t = files s ->
            INT_MIN <= fileNum t -> fileNum t + Z.of_nat k <= INT_MAX ->
            steps t (set_fileNum t (fileNum t + Z.of_nat k))).
  { induction k as [|k IH]; intros t Hwt Hft Hlo Hhi.
    - rewrite Z.add_0_r; destruct t; apply rt1n_refl.
    - assert (Hinc : int_incr (fileNum t) = fileNum t + 1)
        by (apply int_incr_succ; lia).
      apply rt1n_trans with (set_fileNum t (fileNum t + 1)).
      + apply step_worker; unfold wstep; rewrite Hwt; cbv zeta.
        rewrite Hft, Hf, Hinc; reflexivity.
      + pose proof (IH (set_fileNum t (fileNum t + 1)) Hwt Hft ltac:(simpl; lia)
                      ltac:(simpl; lia)) as IH'.
        rewrite set_fileNum_twice, fileNum_set_fileNum in IH'.
        replace (fileNum t + Z.of_nat (S k)) with (fileNum t + 1 + Z.of_nat k) by lia.
        exact IH'. }
  pose proof (Hk (Z.to_nat (v - fileNum s)) s Hw eq_refl ltac:(lia)
                 ltac:(rewrite Z2Nat.id; lia)) as Hs.
  rewrite Z2Nat.id in Hs by lia.
  replace (fileNum s + (v - fileNum s)) with v in Hs by lia; exact Hs.
Qed.

End Properties.

(** ** Concrete schedules *)

Fixpoint grabs (n : nat) : list Sched :=
  match n with
  | O => []
  | S n' => grab 0 :: cont :: grabs n'
  end.

(** [start], then [n] frames while the writer thread does not get to run. *)
Definition fill (n : nat) : list Sched := cmd "start" :: grabs n.

(** [start] then [stop] with no frame in between, the writer thread draining
    the end marker, and [stop] returning. *)
Definition no_frame_session : list Sched :=
  [cmd "start"; cmd "stop"; cont; W; W; W; W; W; cont].

(** [start], one frame written, [stop]; the writer thread pops the end marker
    and [stop] sees an empty buffer before the writer is destroyed. *)
Definition stop_race_prefix : list Sched :=
  [cmd "start"; grab 1; cont; W; W; W; W; W; W; cmd "stop"; cont; W].

(** Two [start]/one frame/[stop] sessions, each drained. *)
Definition two_sessions : list Sched :=
  [cmd "start"; grab 1; cont; W; W; W; W; W; W; W; cmd "stop"; cont; W; W; W; W; cont;
   cmd "start"; grab 2; cont; W; W; W; W; W; cmd "stop"; cont; W; W; W; W; cont].

Definition video0 : string := "/jevois/data/savevideo/video000000.avi".
Definition video1 : string := "/jevois/data/savevideo/video000001.avi".
Definition video2 : string := "/jevois/data/savevideo/video000002.avi".

(** [filename] set to [clip.avi], a name with no conversion; two sessions
    of one frame each.  The first saves to [clip.avi]; at the first frame of
    the second, the writer thread enters the probing loop with the counter
    at 1 and [clip.avi] on disk. *)
Definition clip_sessions : list Sched :=
  [set_filename_to "clip.avi"; cmd "start"; grab 1; cont; W; W; W; W; W; W;
   cmd "stop"; cont; W; W; W; W; cont; cmd "start"; grab 2; cont; W; W].

Definition clip : string := "/jevois/data/savevideo/clip.avi".

Definition clip_probe : State :=
  the_state (run_sched opens_always clip_sessions (init [])).

(** A template with no conversion prints the same path at every number. *)
Lemma snprintf_no_conversion n : snprintf clip n = clip.
Proof. reflexivity. Qed.

(** * Claims *)

Section Claims.

Variable encoder_opens : string -> string -> Mat -> bool.

Local Abbreviation wstep := (wstep encoder_opens).
Local Abbreviation step := (step encoder_opens).
Local Abbreviation steps := (steps encoder_opens).
Local Abbreviation reachable := (reachable encoder_opens).

(** C1: in every run of the module, as long as the writer thread has not
    failed, the frames written to the encoder, followed by the frame the
    writer holds and the frames still queued, are exactly the frames
    [process] pushed (while recording, under the size check), in push order;
    once the queue is drained, the encoder has received exactly the pushed
    frames, in order, none lost and none duplicated. *)
Theorem C1_fifo_no_loss fs s :
  reachable fs s -> failed (wpc s) = false ->
  map snd (written s) ++ held (wpc s) ++ queued_frames (queue s) = pushed s /\
  (held (wpc s) = [] -> queued_frames (queue s) = [] ->
   map snd (written s) = pushed s).
Proof.
  intros Hr Hf.
  destruct (fifo_inv_reachable _ fs s Hr) as [_ Heq].
  specialize (Heq Hf); split; [exact Heq|].
  intros Hh Hq; rewrite Hh, Hq, !app_nil_r in Heq; exact Heq.
Qed.

(** C2 (amended): when the writer thread pops the end marker of a session in
    which it never opened an encoder, it creates no file and writes no
    frame, but it still increments the file counter by one before waiting
    for the next frame. *)
Theorem C2_empty_session_stop s m q :
  wpc s = WPop -> writer s = None -> queue s = m :: q ->
  mat_empty m = true -> running s = true ->
  exists s1 s2 s3 s4,
    wstep s = Some s1 /\ wstep s1 = Some s2 /\ wstep s2 = Some s3 /\
    wstep s3 = Some s4 /\ wpc s4 = WPop /\
    files s4 = files s /\ written s4 = written s /\
    fileNum s4 = int_incr (fileNum s).
Proof.
  intros Hw Hwr Hq He Hr.
  destruct (sentinel_cycle encoder_opens s m q Hw Hq He Hr)
    as (s1 & s2 & s3 & s4 & H1 & H2 & H3 & H4 & _ & _ & _ & Hp4 & _ & _ & Hw4 & Hf4 & _ & _ & _ & _ & Hn4).
  exists s1, s2, s3, s4; repeat split; assumption.
Qed.

(** C4: the probing loop moves the counter past every existing file and only
    leaves with a path that names no existing file, so the encoder is never
    opened on an existing file; with [video000000.avi] on disk and the
    counter at 0, two sessions of one frame each save to [video000001.avi]
    and then [video000002.avi]. *)
Theorem C4_probe_never_overwrites :
  (forall fs s m fcc, reachable fs s -> wpc s = WOpen m fcc ->
     file_exists (files s) (itsFilename s) = false) /\
  (forall s m fn fcc s', wpc s = WProbe m fn fcc -> wstep s = Some s' ->
     (file_exists (files s) (snprintf fn (fileNum s)) = true /\
      wpc s' = WProbe m fn fcc /\ fileNum s' = int_incr (fileNum s)) \/
     (file_exists (files s) (snprintf fn (fileNum s)) = false /\
      wpc s' = WOpen m fcc /\ itsFilename s' = snprintf fn (fileNum s) /\
      fileNum s' = fileNum s)) /\
  (let S := the_state (video_run [video0] two_sessions) in
   video_run [video0] two_sessions = Some S /\
   saved_to (report S) = [video1; video2]).
Proof.
  split; [|split].
  - intros fs s m fcc Hr Hw.
    pose proof (open_fresh_reachable _ fs s Hr) as Hf.
    unfold open_fresh in Hf; rewrite Hw in Hf; exact Hf.
  - intros s m fn fcc s' Hw Hs.
    unfold_state; rewrite Hw in Hs.
    destruct (file_exists (files s) (snprintf fn (fileNum s))) eqn:E;
      injection Hs as <-; simpl; [left | right]; repeat split.
  - vm_compute; split; reflexivity.
Qed.

(** C5 (amended): along every run from a reachable state, each step leaves
    [itsFileNum] as it is or applies [++] to the [int]; so the counter never
    decreases and is never reset, except at a step that increments it at
    [INT_MAX] and wraps it around to [INT_MIN]. *)
Theorem C5_fileNum_monotone_until_wrap fs s s' :
  reachable fs s -> steps s s' ->
  fileNum s <= fileNum s' \/
  exists t t', steps s t /\ step t t' /\ steps t' s' /\
    fileNum t = INT_MAX /\ fileNum t' = INT_MIN.
Proof.
  intros Hr Hss; pose proof (fileNum_range_reachable encoder_opens fs s Hr) as Hx.
  clear Hr; revert Hx.
  induction Hss as [x|x y z Hxy Hyz IH]; intros Hx; [left; lia|].
  destruct (IH (fileNum_range_step encoder_opens x y Hx Hxy))
    as [Hle | (t & t' & Hyt & Htt & Hts & Ht & Ht')].
  - destruct (step_fileNum encoder_opens x y Hxy) as [Eq | Eq]; [left; lia|].
    destruct (Z.eq_dec (fileNum x) INT_MAX) as [Emax | Ne].
    + right; exists x, y; split; [apply rt1n_refl|]; split; [exact Hxy|];
        split; [exact Hyz|]; split; [exact Emax|].
      rewrite Eq, Emax; reflexivity.
    + left; rewrite int_incr_succ in Eq; [lia|]; unfold int_range in Hx; lia.
  - right; exists t, t'; split; [apply rt1n_trans with y; assumption|]; auto.
Qed.

(** C6: the encoder never receives an empty matrix; popping the end marker
    leads to [break] without writing, and the writer thread then destroys
    the writer (closing the file) without popping anything else; the engine
    thread never changes the writer thread's state. *)
Theorem C6_sentinel_not_written :
  (forall fs s, reachable fs s ->
     Forall (fun p => mat_empty (snd p) = false) (written s)) /\
  (forall s m q s1, wpc s = WPop -> queue s = m :: q -> mat_empty m = true ->
     wstep s = Some s1 ->
     wpc s1 = WBreak /\ queue s1 = q /\ written s1 = written s) /\
  (forall s, wpc s = WBreak -> exists s1, wstep s = Some s1 /\
     wpc s1 = WEndBody /\ queue s1 = queue s /\ written s1 = written s /\
     writer s1 = writer s) /\
  (forall s, wpc s = WEndBody -> exists s1, wstep s = Some s1 /\
     wpc s1 = WTop /\ queue s1 = queue s /\ written s1 = written s /\
     writer s1 = None) /\
  (forall s ev s', hstep s ev = Some s' ->
     wpc s' = wpc s /\ writer s' = writer s /\ written s' = written s).
Proof.
  split; [|split; [|split; [|split]]].
  - intros fs s Hr; apply (written_ok_reachable _ fs s Hr).
  - intros s m q s1 Hw Hq He Hs; unfold_state; rewrite Hw, Hq in Hs; simpl in Hs.
    rewrite He in Hs; injection Hs as <-; simpl; auto.
  - intros s Hw; eexists; unfold_state; rewrite Hw; repeat split.
  - intros s Hw; eexists; unfold_state; rewrite Hw; repeat split.
  - intros s ev s' Hs; destruct (hstep_worker_frame s ev s' Hs) as (? & ? & ? & _); auto.
Qed.

(** C9: an empty [filename] parameter when the first frame of a session
    arrives, or a failure of [writer.open], makes [run()] exit through
    [LFATAL] without writing the frame; the writer thread never resumes and
    no frame is written afterwards. *)
Theorem C9_open_errors_fatal s m fcc :
  (wpc s = WStart m /\ filename s = "") \/
  (wpc s = WOpen m fcc /\ encoder_opens (itsFilename s) fcc m = false) ->
  exists what s', wstep s = Some s' /\ wpc s' = WFailed what /\
    written s' = written s /\ report s' = report s ++ [Fatal what] /\
    (forall s'', steps s' s'' -> wpc s'' = WFailed what /\ written s'' = written s).
Proof.
  intros Hc.
  assert (Hw : exists what s', wstep s = Some s' /\ wpc s' = WFailed what /\
            written s' = written s /\ report s' = report s ++ [Fatal what]).
  { destruct Hc as [[Hw Hp] | [Hw Ho]]; do 2 eexists; unfold_state; rewrite Hw;
      [rewrite Hp | rewrite Ho]; simpl; repeat split. }
  destruct Hw as (what & s' & Hs & Hf & Hwr & Hrep).
  exists what, s'; split; [exact Hs|]; split; [exact Hf|]; split; [exact Hwr|];
    split; [exact Hrep|].
  intros s'' Hss.
  destruct (failed_steps encoder_opens s' s'' what Hss Hf).
  split; congruence.
Qed.

(** C10: whenever the writer thread pops an end marker while [itsRunning]
    holds, whether or not an encoder was opened in the session, it
    increments the file counter by exactly one ([++itsFileNum] after the
    [break]) and goes back to waiting in [pop]. *)
Theorem C10_sentinel_increments s m q :
  wpc s = WPop -> queue s = m :: q -> mat_empty m = true -> running s = true ->
  exists s1 s2 s3 s4,
    wstep s = Some s1 /\ wstep s1 = Some s2 /\ wstep s2 = Some s3 /\
    wstep s3 = Some s4 /\ wpc s4 = WPop /\ queue s4 = q /\
    fileNum s1 = fileNum s /\ fileNum s2 = int_incr (fileNum s) /\
    fileNum s3 = int_incr (fileNum s) /\ fileNum s4 = int_incr (fileNum s).
Proof.
  intros Hw Hq He Hr.
  destruct (sentinel_cycle encoder_opens s m q Hw Hq He Hr)
    as (s1 & s2 & s3 & s4 & H1 & H2 & H3 & H4 & _ & _ & _ & Hp4 & _ & Hq4 & _ & _ & _ & Hn1 & Hn2 & Hn3 & Hn4).
  exists s1, s2, s3, s4; repeat split; assumption.
Qed.

End Claims.

(** C2 (counterexample): [start] then [stop] with no frame recorded: when
    [stop] has returned and the writer thread waits again, no file was
    created and no frame written, yet the file counter went from 0 to 1. *)
Lemma C2_stop_without_frames_counts :
  let S := the_state (video_run [] no_frame_session) in
  video_run [] no_frame_session = Some S /\ hpc S = HReady /\ wpc S = WPop /\
  files S = [] /\ written S = [] /\ fileNum (init []) = 0 /\ fileNum S = 1.
Proof. vm_compute; repeat split. Qed.

(** C5 (counterexample): with [filename] set to [clip.avi], which has no
    conversion, the probing loop of the second session finds [clip.avi] at
    every number: [++itsFileNum] takes the counter from 1 up to [INT_MAX],
    and the next probe step wraps it around to [INT_MIN], so the counter
    decreases. *)
Lemma C5_counter_wraps_negative :
  exists s s', reachable opens_always [] s /\ step opens_always s s' /\
    fileNum s = INT_MAX /\ fileNum s' = INT_MIN /\ fileNum s' < fileNum s /\
    wpc s' = wpc s.
Proof.
  assert (H0 : run_sched opens_always clip_sessions (init []) = Some clip_probe) by (vm_compute; reflexivity).
  assert (Hw : wpc clip_probe = WProbe (convertToCvBGR (img 2)) clip "MJPG")
    by (vm_compute; reflexivity).
  assert (Hf : files clip_probe = [clip]) by (vm_compute; reflexivity).
  assert (Hn : fileNum clip_probe = 1) by (vm_compute; reflexivity).
  exists (set_fileNum clip_probe INT_MAX), (set_fileNum clip_probe INT_MIN).
  split; [|split; [|rewrite !fileNum_set_fileNum, !wpc_set_fileNum; repeat split]].
  - apply (steps_trans opens_always _ _ _ (run_sched_steps _ _ _ _ H0)).
    apply (probe_spin opens_always _ _ _ _ _ Hw).
    + intros n; rewrite Hf, snprintf_no_conversion; reflexivity.
    + rewrite Hn; unfold INT_MIN, INT_MAX; lia.
    + lia.
  - apply step_worker; vm_compute; reflexivity.
Qed.

(** C3: the polling loop of [stop] only lets [parseSerial] return once
    [itsBuf] is empty; but the buffer is empty as soon as the writer thread
    has popped the end marker, before it destroys the writer: in this run
    [stop] returns while the file [video000000.avi] is still open and the
    counter not yet incremented. *)
Theorem C3_stop_returns_before_close :
  (forall s ev s', hpc s = HPoll -> hstep s ev = Some s' -> hpc s' = HReady ->
     queue s = []) /\
  (let S0 := the_state (video_run [] stop_race_prefix) in
   video_run [] stop_race_prefix = Some S0 /\ hpc S0 = HPoll /\
   match hstep S0 None with
   | Some S1 => hpc S1 = HReady /\ queue S1 = [] /\ wpc S1 = WBreak /\
                writer S1 = Some video0 /\ fileNum S1 = 0
   | None => False
   end).
Proof.
  split.
  - intros s ev s' Hp Hs Hr; unfold_state; rewrite Hp in Hs.
    destruct ev; [discriminate|].
    destruct (Nat.eqb (length (queue s)) 0) eqn:E; injection Hs as <-; simpl in Hr.
    + apply Nat.eqb_eq, length_zero_iff_nil in E; exact E.
    + rewrite Hp in Hr; discriminate.
  - vm_compute; repeat split.
Qed.

(** C7: [itsBuf] never holds more than 1000 frames, so the test
    [filled_size() > 1000] never holds and no frame is ever dropped; with
    1000 frames queued while recording, [process] calls [push], which
    blocks the engine thread (no step of it is possible) until the writer
    thread pops. *)
Theorem C7_full_queue_blocks :
  (forall e fs s, reachable e fs s -> (filled_size (queue s) <= 1000)%nat) /\
  (let S := the_state (video_run [] (fill 1000)) in
   video_run [] (fill 1000) = Some S /\ saving S = true /\ hpc S = HReady /\
   filled_size (queue S) = 1000%nat /\
   match hstep S (Some (EvFrame (img 0) false)) with
   | Some S' => hpc S' = HPushFrame (convertToCvBGR (img 0)) HReady /\
                report S' = report S /\ hstep S' None = None
   | None => False
   end).
Proof.
  split.
  - intros e fs s Hr; apply (queue_bound_reachable e fs s Hr).
  - vm_compute; repeat split.
Qed.

(** C8: while not recording, one call of either [process] leaves [itsBuf]
    and the pushed frames as they were, sends the frame to the USB output
    (the version with an output) and returns. *)
Theorem C8_not_saving_no_enqueue s img0 o s' :
  saving s = false -> hpc s = HReady ->
  hstep s (Some (EvFrame img0 o)) = Some s' ->
  queue s' = queue s /\ pushed s' = pushed s /\ hpc s' = HReady /\
  sent s' = sent s ++ (if o then [img0] else []) /\ wpc s' = wpc s /\
  report s' = report s.
Proof.
  intros Hsv Hp Hs; unfold_state; rewrite Hp in Hs.
  destruct (camera_ok img0); [|discriminate].
  rewrite Hsv in Hs; destruct o; injection Hs as <-; simpl;
    rewrite ?app_nil_r; repeat split; exact Hp.
Qed.

(** ** Witnesses: the theorems applied to concrete runs *)

(** A writer thread waiting in [pop] with the end marker queued. *)
Definition at_end_marker (fs : list string) (w : option string) : State :=
  set_writer (set_queue (set_wpc (init fs) WPop) [emptyMat]) w.

Lemma C1_witness :
  map snd (written (the_state (video_run [video0] two_sessions))) =
  pushed (the_state (video_run [video0] two_sessions)) /\
  pushed (the_state (video_run [video0] two_sessions)) =
  [convertToCvBGR (img 1); convertToCvBGR (img 2)].
Proof.
  split; [|vm_compute; reflexivity].
  refine (proj2 (C1_fifo_no_loss opens_always [video0] _ _ _) _ _).
  - apply run_sched_steps with two_sessions; vm_compute; reflexivity.
  - vm_compute; reflexivity.
  - vm_compute; reflexivity.
  - vm_compute; reflexivity.
Defined.

Lemma C2_witness :
  exists s1 s2 s3 s4,
    wstep opens_always (at_end_marker [] None) = Some s1 /\
    wstep opens_always s1 = Some s2 /\
    wstep opens_always s2 = Some s3 /\
    wstep opens_always s3 = Some s4 /\ wpc s4 = WPop /\
    files s4 = files (at_end_marker [] None) /\
    written s4 = written (at_end_marker [] None) /\
    fileNum s4 = int_incr (fileNum (at_end_marker [] None)).
Proof.
  apply (C2_empty_session_stop opens_always
           (at_end_marker [] None) emptyMat []); reflexivity.
Defined.

Lemma C5_witness :
  let s' := the_state (video_run [video0] two_sessions) in
  fileNum (init [video0]) <= fileNum s' \/
  exists t t', steps opens_always (init [video0]) t /\ step opens_always t t' /\
    steps opens_always t' s' /\ fileNum t = INT_MAX /\ fileNum t' = INT_MIN.
Proof.
  intros s'; apply (C5_fileNum_monotone_until_wrap opens_always [video0]).
  - apply rt1n_refl.
  - apply run_sched_steps with two_sessions; vm_compute; reflexivity.
Defined.

Lemma C8_witness :
  let s' := the_state (hstep (init []) (Some (EvFrame (img 1) true))) in
  queue s' = queue (init []) /\ pushed s' = pushed (init []) /\ hpc s' = HReady /\
  sent s' = sent (init []) ++ [img 1] /\ wpc s' = wpc (init []) /\
  report s' = report (init []).
Proof.
  apply (C8_not_saving_no_enqueue (init []) (img 1) true); vm_compute; reflexivity.
Defined.

Lemma C9_witness :
  let s := set_filename (set_wpc (init []) (WStart (convertToCvBGR (img 1)))) "" in
  exists what s', wstep opens_always s = Some s' /\ wpc s' = WFailed what /\
    written s' = written s /\ report s' = report s ++ [Fatal what] /\
    (forall s'', steps opens_always s' s'' ->
       wpc s'' = WFailed what /\ written s'' = written s).
Proof.
  apply (C9_open_errors_fatal opens_always _ (convertToCvBGR (img 1)) "MJPG").
  left; split; reflexivity.
Defined.

Lemma C10_witness :
  let s := at_end_marker [video0] (Some video0) in
  exists s1 s2 s3 s4,
    wstep opens_always s = Some s1 /\
    wstep opens_always s1 = Some s2 /\
    wstep opens_always s2 = Some s3 /\
    wstep opens_always s3 = Some s4 /\ wpc s4 = WPop /\
    queue s4 = [] /\ fileNum s1 = fileNum s /\ fileNum s2 = int_incr (fileNum s) /\
    fileNum s3 = int_incr (fileNum s) /\ fileNum s4 = int_incr (fileNum s).
Proof.
  apply (C10_sentinel_increments opens_always _ emptyMat []);
    reflexivity.
Defined.

(** * Further properties of the module

    The writer's bookkeeping of files, the shutdown path through
    [postUninit], and the [stop] command after a failure of [run()]. *)

(** The number of frames given to the encoder for the file [p]. *)
Definition frames_in (p : string) (w : list (string * Mat)) : nat :=
  length (filter (fun e => String.eqb (fst e) p) w).

(** The files [run()] opened: each exists on disk, none twice; every frame
    went to one of them; the open writer is the last one, and [frame] counts
    the frames written to it; where in [run()] the writer is open. *)
Definition session_inv (s : State) : Prop :=
  Forall (fun p => In p (files s)) (saved_to (report s)) /\
  NoDup (saved_to (report s)) /\
  Forall (fun e => In (fst e) (saved_to (report s))) (written s) /\
  (forall p, writer s = Some p ->
     frame s = to_int (Z.of_nat (frames_in p (written s))) /\ In p (saved_to (report s)) /\
     last (saved_to (report s)) "" = p) /\
  match wpc s with
  | WTop | WDone | WFailed _ => writer s = None
  | WStart _ | WProbe _ _ _ | WOpen _ _ => writer s = None /\ frame s = 0
  | WPop | WBreak => writer s = None -> frame s = 0
  | WWrite _ => writer s <> None
  | WEndBody => True
  end.

(** The writer thread is inside the body of its [while (itsRunning)] loop,
    before the [break] on an end marker. *)
Definition inner (w : WPc) : bool :=
  match w with WPop | WStart _ | WProbe _ _ _ | WOpen _ _ | WWrite _ => true | _ => false end.

(** The writer thread has left the inner loop through [break], or is at the
    test of [itsRunning], or has returned. *)
Definition post (w : WPc) : bool :=
  match w with WBreak | WEndBody | WTop | WDone => true | _ => false end.

(** The engine thread's program counter only takes the shapes [process],
    [parseSerial] and [postUninit] give it. *)
Definition hpc_wf (h : HPc) : bool :=
  match h with
  | HPushFrame m k =>
      negb (mat_empty m) && match k with HReady | HSend _ => true | _ => false end
  | HPushEnd k => match k with HPoll | HJoin => true | _ => false end
  | _ => true
  end.

(** [postUninit] only returns once [run()] has; outside the waits of [stop]
    and [postUninit], [itsBuf] holds only real frames. *)
Definition engine_inv (s : State) : Prop :=
  hpc_wf (hpc s) = true /\
  (hpc s = HDown -> wpc s = WDone \/ failed (wpc s) = true) /\
  match hpc s with
  | HPoll | HJoin | HDown => True
  | _ => Forall (fun m => mat_empty m = false) (queue s)
  end.

(** After [postUninit], with the frames [P] pushed so far: the writer thread
    is either still inside the loop body of [run()] with the end marker last
    in [itsBuf], or has left the body with no frame left behind, or failed. *)
Definition drain_inv (P : list Mat) (s : State) : Prop :=
  running s = false /\ pushed s = P /\
  ((hpc s = HPushEnd HJoin /\ (inner (wpc s) || failed (wpc s)) = true /\
    Forall (fun m => mat_empty m = false) (queue s)) \/
   ((hpc s = HJoin \/ hpc s = HDown) /\
    ((inner (wpc s) = true /\ exists fr e, queue s = fr ++ [e] /\ mat_empty e = true /\
        Forall (fun m => mat_empty m = false) fr) \/
     (post (wpc s) = true /\ queued_frames (queue s) = []) \/
     failed (wpc s) = true))).

(** [start]; the writer thread waits in [pop]; two frames are queued. *)
Definition two_frames_queued : list Sched :=
  [cmd "start"; W; grab 1; cont; grab 2; cont].
(** After [postUninit]: the end marker is pushed, the writer thread writes
    both frames, leaves and returns, and [postUninit] returns. *)
Definition drain_at_shutdown : list Sched :=
  [cont; W; W; W; W; W; W; W; W; W; W; W; cont].
(** [stop] returns while the writer thread is at [break]; a new [start]
    queues one frame before the writer thread moves. *)
Definition frame_after_race : list Sched :=
  stop_race_prefix ++ [cont; cmd "start"; grab 3; cont].
(** After [postUninit]: the end marker is pushed, the writer thread ends the
    loop body, sees [itsRunning] false and returns. *)
Definition exit_between_sessions : list Sched := [cont; W; W; W; cont].
(** [setpar filename] to the empty string: the first frame of a session
    makes [run()] exit through [LFATAL]. *)
Definition open_failed : list Sched :=
  [set_filename_to ""; cmd "start"; W; grab 1; cont; W; W].

Lemma saved_to_app r r' : saved_to (r ++ r') = saved_to r ++ saved_to r'.
Proof.
  induction r as [|a r IH]; [reflexivity|]; destruct a; simpl; rewrite ?IH; reflexivity.
Qed.

Lemma hstep_session s ev s' :
  hstep s ev = Some s' ->
  saved_to (report s') = saved_to (report s) /\ frame s' = frame s.
Proof.
  intros Hs; split_step Hs; rewrite ?saved_to_app; simpl; rewrite ?app_nil_r; auto.
Qed.

Lemma frames_in_app p w w' : frames_in p (w ++ w') = (frames_in p w + frames_in p w')%nat.
Proof. unfold frames_in; rewrite filter_app, length_app; reflexivity. Qed.


Lemma file_exists_false fs p : file_exists fs p = false -> ~ In p fs.
Proof.
  unfold file_exists; intros H Hin.
  assert (E : existsb (String.eqb p) fs = true)
    by (apply existsb_exists; exists p; split; [exact Hin | apply String.eqb_refl]).
  congruence.
Qed.

Lemma frames_in_zero p w : Forall (fun e => fst e <> p) w -> frames_in p w = 0%nat.
Proof.
  induction 1 as [|e w He _ IH]; [reflexivity|]; unfold frames_in in *; simpl.
  destruct (String.eqb_spec (fst e) p); [contradiction | exact IH].
Qed.

Lemma frames_in_one p m : frames_in p [(p, m)] = 1%nat.
Proof. unfold frames_in; simpl; rewrite String.eqb_refl; reflexivity. Qed.

Section SessionStep.
Variable encoder_opens : string -> string -> Mat -> bool.

Lemma session_inv_step s s' :
  open_fresh s -> session_inv s -> step encoder_opens s s' -> session_inv s'.
Proof.
  intros Hfr (Hf & Hnd & Hw & Hwr & Hpc) [ev Hs | Hs].
  - destruct (hstep_worker_frame s ev s' Hs) as (Ew & Ewr & Ewt & _ & Efs & _).
    destruct (hstep_session s ev s' Hs) as [Er Efr].
    unfold session_inv; rewrite Ew, Ewr, Ewt, Efs, Er, Efr; auto.
  - unfold open_fresh in Hfr; split_step Hs; rewrite_eqs; simpl in *.
    all: unfold session_inv; simpl; rewrite ?saved_to_app; simpl; rewrite ?app_nil_r.
    all: try (exfalso; apply Hpc; reflexivity).
    all: repeat match goal with |- _ /\ _ => split end.
    all: try assumption; try reflexivity; try (intros ? ?; discriminate); try congruence.
    all: try (apply Hpc; reflexivity); try (destruct Hpc; assumption).
    all: try (pose proof (file_exists_false _ _ Hfr) as Hn;
              assert (Hns : ~ In (itsFilename s) (saved_to (report s)))
                by (intros Hin; exact (Hn (proj1 (Forall_forall _ _) Hf _ Hin)))).
    all: lazymatch goal with
         | |- Forall _ (_ ++ [itsFilename _]) =>
             apply Forall_app; split;
               [eapply Forall_impl; [|exact Hf]; simpl; auto | constructor; auto]
         | |- NoDup _ =>
             apply NoDup_app; [exact Hnd | apply NoDup_cons; [intros [] | apply NoDup_nil] |
               intros a Ha [<-|[]]; exact (Hns Ha)]
         | |- Forall _ (written _) =>
             eapply Forall_impl; [|exact Hw]; intros e He; apply in_or_app; left; exact He
         | |- forall p, Some (itsFilename _) = Some p -> _ =>
             intros p [= <-]; destruct Hpc as [_ ->]; split;
               [rewrite frames_in_zero; [reflexivity|];
                eapply Forall_impl; [|exact Hw]; intros e He Heq; apply Hns;
                rewrite <- Heq; exact He
               | split; [apply in_or_app; right; left; reflexivity | apply last_last]]
         | |- Forall _ (written _ ++ [(?s0, _)]) =>
             apply Forall_app; split;
               [exact Hw | apply Forall_cons; [exact (proj1 (proj2 (Hwr s0 eq_refl))) | apply Forall_nil]]
         | |- forall p, Some ?s0 = Some p -> _ =>
             intros p [= <-]; destruct (Hwr s0 eq_refl) as (Hfr0 & Hin & Hl);
             rewrite frames_in_app, Hfr0, frames_in_one, int_incr_to_int;
             split; [f_equal; lia | split; assumption]
         end.
Qed.
End SessionStep.

Section Invariants.
Variable encoder_opens : string -> string -> Mat -> bool.
Local Abbreviation wstep := (wstep encoder_opens).
Local Abbreviation step := (step encoder_opens).
Local Abbreviation steps := (steps encoder_opens).
Local Abbreviation reachable := (reachable encoder_opens).

Lemma session_inv_reachable fs s : reachable fs s -> session_inv s.
Proof.
  intros Hr.
  assert (H : open_fresh s /\ session_inv s).
  { apply (steps_ind_inv encoder_opens (fun s => open_fresh s /\ session_inv s))
      with (init fs); [|exact Hr|].
    - intros x y [Hf Hs] Hxy; split;
        [exact (open_fresh_step _ x y Hf Hxy) | exact (session_inv_step _ x y Hf Hs Hxy)].
    - split; [exact I|]; unfold session_inv; simpl.
      split; [apply Forall_nil|]; split; [apply NoDup_nil|]; split; [apply Forall_nil|].
      split; [intros p Hp; discriminate | reflexivity]. }
  exact (proj2 H).
Qed.

(** The writer thread never touches the engine thread's state. *)
Lemma wstep_host_frame s s' :
  wstep s = Some s' ->
  running s' = running s /\ pushed s' = pushed s /\ hpc s' = hpc s /\ saving s' = saving s.
Proof. intros Hs; split_step Hs; auto. Qed.

Lemma wstep_inner s s' :
  wstep s = Some s' -> inner (wpc s) = true -> wpc s <> WPop ->
  queue s' = queue s /\ (inner (wpc s') || failed (wpc s')) = true.
Proof. intros Hs Hi Hp; split_step Hs; rewrite_eqs; simpl in *; try congruence; auto. Qed.

Lemma wstep_pop s s' m q :
  wstep s = Some s' -> wpc s = WPop -> queue s = m :: q ->
  queue s' = q /\ (if mat_empty m then wpc s' = WBreak else inner (wpc s') = true).
Proof.
  intros Hs Hw Hq; unfold wstep in Hs; rewrite Hw in Hs; unfold bb_pop in Hs; rewrite Hq in Hs.
  destruct (mat_empty m); [|destruct (writer s)]; injection Hs as <-; auto.
Qed.

Lemma wstep_post s s' :
  wstep s = Some s' -> post (wpc s) = true -> running s = false ->
  queue s' = queue s /\ post (wpc s') = true /\ written s' = written s.
Proof. intros Hs Hp Hr; split_step Hs; rewrite_eqs; simpl in *; try congruence; auto. Qed.

Lemma wstep_failed s : failed (wpc s) = true -> wstep s = None.
Proof. unfold wstep; destruct (wpc s); try discriminate; reflexivity. Qed.

Lemma hstep_running s ev s' : hstep s ev = Some s' -> running s = false -> running s' = false.
Proof. intros Hs Hr; split_step Hs; rewrite_eqs; auto. Qed.

Lemma wstep_queue s s' :
  wstep s = Some s' -> queue s' = queue s \/ exists m, queue s = m :: queue s'.
Proof. intros Hs; split_step Hs; rewrite_eqs; eauto. Qed.

Lemma engine_inv_step s s' : engine_inv s -> step s s' -> engine_inv s'.
Proof.
  intros (Hwf & Hd & Hq) [ev Hs | Hs].
  - unfold engine_inv; split_step Hs; rewrite_eqs; simpl in *; rewrite_eqs; simpl in *.
    all: try (apply andb_prop in Hwf as [Hm Hk]; apply negb_true_iff in Hm).
    all: try (destruct h; simpl in *; try discriminate Hk; try discriminate Hwf).
    all: try (match goal with
              | H : Nat.eqb (length (queue _)) 0 = true |- _ =>
                  apply Nat.eqb_eq, length_zero_iff_nil in H; rewrite H
              end).
    all: repeat split; auto; try (intros; discriminate);
      try (rewrite camera_nonempty; auto); try (apply Forall_app; split; auto).
  - destruct (wstep_host_frame _ _ Hs) as (_ & _ & Eh & _).
    unfold engine_inv; rewrite Eh; split; [exact Hwf|]; split.
    + intros Hh; destruct (Hd Hh) as [Hw|Hw];
        [unfold wstep in Hs; rewrite Hw in Hs; discriminate
        | rewrite (wstep_failed _ Hw) in Hs; discriminate].
    + destruct (hpc s); auto;
        (destruct (wstep_queue _ _ Hs) as [-> | [m0 Hm]]; [exact Hq | rewrite Hm in Hq; inversion Hq; auto]).
Qed.

Lemma engine_inv_reachable fs s : reachable fs s -> engine_inv s.
Proof.
  intros Hr; apply (steps_ind_inv _ _ engine_inv_step _ _ Hr).
  split; [reflexivity|]; split; [intros H; discriminate | apply Forall_nil].
Qed.

Lemma drain_step P s s' : drain_inv P s -> step s s' -> drain_inv P s'.
Proof.
  intros (Hr & Hp & Hb) [ev Hs | Hs].
  - destruct Hb as [(Hh & Hi & Hq) | (Hh & Hb)].
    + unfold hstep in Hs; rewrite Hh in Hs; destruct ev; [discriminate|].
      unfold bb_push in Hs; destruct (Nat.ltb (length (queue s)) buf_size); [|discriminate].
      injection Hs as <-; unfold drain_inv; cbn.
      split; [exact Hr|]; split; [exact Hp|]; right; split; [left; reflexivity|].
      destruct (inner (wpc s)) eqn:Ei.
      * left; split; [reflexivity|]; exists (queue s), emptyMat; auto.
      * right; right; exact Hi.
    + destruct Hh as [Hh|Hh]; unfold hstep in Hs; rewrite Hh in Hs; destruct ev; try discriminate.
      destruct (wpc s) eqn:Ew; try discriminate; injection Hs as <-; unfold drain_inv; cbn;
        rewrite Ew in *; (split; [exact Hr|]; split; [exact Hp|]; right; split; [right; reflexivity | exact Hb]).
  - destruct (wstep_host_frame _ _ Hs) as (Er & Ep & Eh & _).
    unfold drain_inv; rewrite Er, Ep, Eh; split; [exact Hr|]; split; [exact Hp|].
    destruct Hb as [(Hh & Hi & Hq) | (Hh & Hb)].
    + left; split; [exact Hh|].
      destruct (inner (wpc s)) eqn:Ei;
        [|simpl in Hi; rewrite (wstep_failed _ Hi) in Hs; discriminate].
      destruct (wpc s) eqn:Ew; try discriminate Ei.
      { destruct (queue s) as [|m q] eqn:Eq;
          [unfold wstep, bb_pop in Hs; rewrite Ew, Eq in Hs; discriminate|].
        destruct (wstep_pop _ _ m q Hs Ew Eq) as [Eq' Hw'].
        inversion Hq as [|? ? Hm Hq']; rewrite Hm in Hw'.
        rewrite Hw', Eq'; split; [reflexivity | exact Hq']. }
      all: destruct (wstep_inner _ _ Hs) as [Eq' Hi']; [rewrite Ew; reflexivity | rewrite Ew; discriminate |].
      all: rewrite Eq'; split; [exact Hi' | exact Hq].
    + right; split; [exact Hh|].
      destruct Hb as [(Hi & fr & e & Eq & He & Hfr) | [(Hpo & Hq) | Hf]].
      * destruct (wpc s) eqn:Ew; try discriminate Hi.
        { destruct fr as [|f fr'].
           - destruct (wstep_pop _ _ e [] Hs Ew Eq) as [Eq' Hw'].
              rewrite He in Hw'; right; left; rewrite Hw', Eq'; split; reflexivity.
           - destruct (wstep_pop _ _ f (fr' ++ [e]) Hs Ew Eq) as [Eq' Hw'].
              inversion Hfr as [|? ? Hm Hfr']; rewrite Hm in Hw'.
              left; split; [exact Hw'|]; exists fr', e; rewrite Eq'; auto. }
        all: destruct (wstep_inner _ _ Hs) as [Eq' Hi']; [rewrite Ew; reflexivity | rewrite Ew; discriminate |].
        all: destruct (inner (wpc s')) eqn:Ei';
          [left; split; [reflexivity|]; exists fr, e; rewrite Eq'; auto | right; right; exact Hi'].
      * destruct (wstep_post _ _ Hs Hpo Hr) as (Eq' & Hpo' & _).
        right; left; rewrite Eq'; split; [exact Hpo' | exact Hq].
      * rewrite (wstep_failed _ Hf) in Hs; discriminate.
Qed.

End Invariants.

Section Extras.
Variable encoder_opens : string -> string -> Mat -> bool.
Local Abbreviation wstep := (wstep encoder_opens).
Local Abbreviation step := (step encoder_opens).
Local Abbreviation steps := (steps encoder_opens).
Local Abbreviation reachable := (reachable encoder_opens).

(** Shutdown from inside a session: if [postUninit] is called while the
    writer thread is inside its inner loop, and [postUninit] returns after
    [run()] returned normally, then every frame [process] pushed was given
    to the encoder, in order, and nothing was pushed after the call. *)
Theorem shutdown_drains_queue fs s s1 s' :
  reachable fs s -> inner (wpc s) = true ->
  hstep s (Some EvShutdown) = Some s1 -> steps s1 s' ->
  hpc s' = HDown -> wpc s' = WDone ->
  map snd (written s') = pushed s' /\ pushed s' = pushed s.
Proof.
  intros Hr Hi Hs Hss Hh Hw.
  assert (Hp : hpc s = HReady) by (unfold hstep in Hs; destruct (hpc s); congruence).
  destruct (engine_inv_reachable _ fs s Hr) as (_ & _ & Hq); rewrite Hp in Hq.
  assert (H1 : drain_inv (pushed s) s1).
  { unfold hstep in Hs; rewrite Hp in Hs; injection Hs as <-.
    unfold drain_inv; cbn; split; [reflexivity|]; split; [reflexivity|].
    left; split; [reflexivity|]; rewrite Hi; split; [reflexivity | exact Hq]. }
  destruct (steps_ind_inv _ _ (drain_step encoder_opens (pushed s)) _ _ Hss H1)
    as (_ & Hps & Hb).
  assert (Hr' : reachable fs s').
  { apply (steps_trans _ _ _ _ Hr); econstructor 2; [apply step_host with (Some EvShutdown); exact Hs | exact Hss]. }
  destruct (fifo_inv_reachable _ fs s' Hr') as [_ Hf].
  rewrite Hw in Hf, Hb; specialize (Hf eq_refl).
  destruct Hb as [(Hh' & _) | (_ & [(Hi' & _) | [(_ & Hq') | Hf']])];
    [rewrite Hh in Hh'; discriminate | discriminate | | discriminate].
  rewrite Hq' in Hf; simpl in Hf; rewrite app_nil_r in Hf; split; [exact Hf | exact Hps].
Qed.

(** Once [itsRunning] is false outside the inner loop, nothing more is
    written. *)
Lemma between_sessions_step Wr s s' :
  running s = false /\ post (wpc s) = true /\ written s = Wr -> step s s' ->
  running s' = false /\ post (wpc s') = true /\ written s' = Wr.
Proof.
  intros (Hr & Hp & Hw) [ev Hs | Hs].
  - destruct (hstep_worker_frame s ev s' Hs) as (-> & _ & -> & _).
    split; [exact (hstep_running _ _ _ Hs Hr) | auto].
  - destruct (wstep_host_frame _ _ _ Hs) as (-> & _).
    destruct (wstep_post _ _ _ Hs Hp Hr) as (_ & Hp' & ->); auto.
Qed.

(** Shutdown between sessions: if [postUninit] is called while the writer
    thread has left its inner loop (after a [break], or at the test of
    [itsRunning]), the writer thread never pops again: no frame is written
    after the call, whatever is still queued in [itsBuf]. *)
Theorem shutdown_between_sessions_writes_nothing s s1 s' :
  post (wpc s) = true -> hstep s (Some EvShutdown) = Some s1 -> steps s1 s' ->
  written s' = written s /\ post (wpc s') = true.
Proof.
  intros Hp Hs Hss.
  assert (H1 : running s1 = false /\ post (wpc s1) = true /\ written s1 = written s).
  { unfold hstep in Hs; destruct (hpc s); try discriminate; injection Hs as <-; cbn; auto. }
  destruct (steps_ind_inv _ _ (between_sessions_step (written s)) _ _ Hss H1) as (_ & Hp' & Hw).
  auto.
Qed.

(** While the writer is open on [p], the counter [frame] (the number the
    [SAVEDNUM] reports print) is the number of frames written to [p], as an
    [int]: that number itself up to [INT_MAX]; [p] exists on disk and is the
    last path announced with [SAVETO]. *)
Theorem open_file_frame_count fs s p :
  reachable fs s -> writer s = Some p ->
  frame s = to_int (Z.of_nat (frames_in p (written s))) /\
  (Z.of_nat (frames_in p (written s)) <= INT_MAX ->
   frame s = Z.of_nat (frames_in p (written s))) /\
  In p (files s) /\ last (saved_to (report s)) "" = p.
Proof.
  intros Hr Hw.
  destruct (session_inv_reachable _ fs s Hr) as (Hf & _ & _ & Hwr & _).
  destruct (Hwr p Hw) as (Hc & Hin & Hl).
  split; [exact Hc|]; split.
  - intros Hle; rewrite Hc; apply to_int_id; unfold int_range, INT_MIN in *; lia.
  - split; [exact (proj1 (Forall_forall _ _) Hf p Hin) | exact Hl].
Qed.

(** No two sessions save to the same file: the paths announced with
    [SAVETO] are pairwise distinct, and each names a file on disk. *)
Theorem saveto_paths_distinct fs s :
  reachable fs s ->
  NoDup (saved_to (report s)) /\ Forall (fun p => In p (files s)) (saved_to (report s)).
Proof.
  intros Hr; destruct (session_inv_reachable _ fs s Hr) as (Hf & Hnd & _); auto.
Qed.

(** Every frame given to the encoder went to a file announced with
    [SAVETO]. *)
Theorem written_to_announced_file fs s :
  reachable fs s -> Forall (fun e => In (fst e) (saved_to (report s))) (written s).
Proof.
  intros Hr; destruct (session_inv_reachable _ fs s Hr) as (_ & _ & Hw & _); exact Hw.
Qed.

(** When [postUninit] has returned, [run()] has returned (normally or
    through [LFATAL]) and no writer is open. *)
Theorem postUninit_returns_closed fs s :
  reachable fs s -> hpc s = HDown ->
  (wpc s = WDone \/ failed (wpc s) = true) /\ writer s = None.
Proof.
  intros Hr Hh.
  destruct (engine_inv_reachable _ fs s Hr) as (_ & Hd & _).
  destruct (session_inv_reachable _ fs s Hr) as (_ & _ & _ & _ & Hc).
  destruct (Hd Hh) as [Hw | Hw]; split; auto.
  - rewrite Hw in Hc; exact Hc.
  - destruct (wpc s); try discriminate Hw; exact Hc.
Qed.

(** A failed writer thread with [stop] pushing or polling a non-empty
    buffer. *)
Lemma stuck_step s s' :
  failed (wpc s) = true /\ (hpc s = HPushEnd HPoll \/ (hpc s = HPoll /\ queue s <> [])) ->
  step s s' ->
  failed (wpc s') = true /\ (hpc s' = HPushEnd HPoll \/ (hpc s' = HPoll /\ queue s' <> [])).
Proof.
  intros (Hf & Hb) [ev Hs | Hs].
  - destruct (hstep_worker_frame s ev s' Hs) as (Ew & _); rewrite Ew; split; [exact Hf|].
    destruct Hb as [Hh | (Hh & Hq)]; unfold hstep in Hs; rewrite Hh in Hs; destruct ev; try discriminate.
    + unfold bb_push in Hs; destruct (Nat.ltb (length (queue s)) buf_size); [|discriminate].
      injection Hs as <-; right; cbn; split; [reflexivity|]; destruct (queue s); discriminate.
    + unfold filled_size in Hs; destruct (queue s) eqn:Eq; [contradiction|].
      simpl in Hs; injection Hs as <-; right; rewrite Eq; split; [exact Hh | discriminate].
  - rewrite (wstep_failed _ _ Hf) in Hs; discriminate.
Qed.

(** After [run()] exited through [LFATAL], a [stop] command never returns:
    the end marker is pushed and never popped, so the polling loop waits
    forever. *)
Theorem stop_after_failure_never_returns s s1 s' :
  failed (wpc s) = true -> hstep s (Some (EvCmd "stop")) = Some s1 -> steps s1 s' ->
  hpc s' = HPushEnd HPoll \/ hpc s' = HPoll.
Proof.
  intros Hf Hs Hss.
  assert (H1 : failed (wpc s1) = true /\
               (hpc s1 = HPushEnd HPoll \/ (hpc s1 = HPoll /\ queue s1 <> []))).
  { unfold hstep in Hs; destruct (hpc s); try discriminate; injection Hs as <-; cbn; auto. }
  destruct (steps_ind_inv _ _ stuck_step _ _ Hss H1) as (_ & [Hh | (Hh & _)]); auto.
Qed.

(** Except while [stop] polls and [postUninit] joins, [itsBuf] holds no end
    marker. *)
Theorem no_end_marker_between_calls fs s :
  reachable fs s -> hpc s <> HPoll -> hpc s <> HJoin -> hpc s <> HDown ->
  Forall (fun m => mat_empty m = false) (queue s).
Proof.
  intros Hr H1 H2 H3; destruct (engine_inv_reachable _ fs s Hr) as (_ & _ & Hq).
  destruct (hpc s); congruence || exact Hq.
Qed.

End Extras.

(** ** Witnesses of the further properties *)

Lemma shutdown_drains_queue_witness :
  let s := the_state (video_run [] two_frames_queued) in
  let s1 := the_state (hstep s (Some EvShutdown)) in
  let s' := the_state (run_sched opens_always drain_at_shutdown s1) in
  (map snd (written s') = pushed s' /\ pushed s' = pushed s) /\
  queued_frames (queue s) = [convertToCvBGR (img 1); convertToCvBGR (img 2)].
Proof.
  intros s s1 s'; split; [|vm_compute; reflexivity].
  apply (shutdown_drains_queue opens_always [] s s1 s').
  - apply run_sched_steps with two_frames_queued; vm_compute; reflexivity.
  - vm_compute; reflexivity.
  - vm_compute; reflexivity.
  - apply run_sched_steps with drain_at_shutdown; vm_compute; reflexivity.
  - vm_compute; reflexivity.
  - vm_compute; reflexivity.
Defined.

Lemma shutdown_between_sessions_witness :
  let s := the_state (video_run [] frame_after_race) in
  let s1 := the_state (hstep s (Some EvShutdown)) in
  let s' := the_state (run_sched opens_always exit_between_sessions s1) in
  (written s' = written s /\ post (wpc s') = true) /\
  hpc s' = HDown /\ queued_frames (queue s') = [convertToCvBGR (img 3)].
Proof.
  intros s s1 s'; split; [|vm_compute; split; reflexivity].
  apply (shutdown_between_sessions_writes_nothing opens_always s s1 s').
  - vm_compute; reflexivity.
  - vm_compute; reflexivity.
  - apply run_sched_steps with exit_between_sessions; vm_compute; reflexivity.
Defined.

Lemma open_file_frame_count_witness :
  let s := the_state (video_run [] stop_race_prefix) in
  frame s = to_int (Z.of_nat (frames_in video0 (written s))) /\
  (Z.of_nat (frames_in video0 (written s)) <= INT_MAX ->
   frame s = Z.of_nat (frames_in video0 (written s))) /\
  In video0 (files s) /\ last (saved_to (report s)) "" = video0.
Proof.
  apply (open_file_frame_count opens_always []).
  - apply run_sched_steps with stop_race_prefix; vm_compute; reflexivity.
  - vm_compute; reflexivity.
Defined.

Lemma saveto_paths_distinct_witness :
  let s := the_state (video_run [video0] two_sessions) in
  NoDup (saved_to (report s)) /\ Forall (fun p => In p (files s)) (saved_to (report s)).
Proof.
  apply (saveto_paths_distinct opens_always [video0]).
  apply run_sched_steps with two_sessions; vm_compute; reflexivity.
Defined.

Lemma written_to_announced_file_witness :
  let s := the_state (video_run [video0] two_sessions) in
  Forall (fun e => In (fst e) (saved_to (report s))) (written s).
Proof.
  apply (written_to_announced_file opens_always [video0]).
  apply run_sched_steps with two_sessions; vm_compute; reflexivity.
Defined.

Lemma postUninit_returns_closed_witness :
  let s := the_state (video_run [] (two_frames_queued ++ H (Some EvShutdown) :: drain_at_shutdown)) in
  (wpc s = WDone \/ failed (wpc s) = true) /\ writer s = None.
Proof.
  apply (postUninit_returns_closed opens_always []).
  - apply run_sched_steps with (two_frames_queued ++ H (Some EvShutdown) :: drain_at_shutdown);
      vm_compute; reflexivity.
  - vm_compute; reflexivity.
Defined.

Lemma stop_after_failure_witness :
  let s := the_state (run_sched opens_always open_failed (init [])) in
  let s1 := the_state (hstep s (Some (EvCmd "stop"))) in
  let s' := the_state (run_sched opens_always [cont; cont; cont] s1) in
  hpc s' = HPushEnd HPoll \/ hpc s' = HPoll.
Proof.
  intros s s1 s'.
  apply (stop_after_failure_never_returns opens_always s s1 s').
  - vm_compute; reflexivity.
  - vm_compute; reflexivity.
  - apply run_sched_steps with [cont; cont; cont]; vm_compute; reflexivity.
Defined.

Lemma no_end_marker_between_calls_witness :
  let s := the_state (video_run [] (fill 3)) in
  Forall (fun m => mat_empty m = false) (queue s).
Proof.
  apply (no_end_marker_between_calls opens_always []).
  - apply run_sched_steps with (fill 3); vm_compute; reflexivity.
  - vm_compute; discriminate.
  - vm_compute; discriminate.
  - vm_compute; discriminate.
Defined.
